(** * assign.h: assigning a pack of variables from a tuple-like value

    A shallow embedding of [include/assign.h].  The header has a
    compile-time half (the concept [tuple_like], the concept
    [assignable_from] and the requires-clause of
    [assign_helper::operator=]) and a run-time half (the fold expression of
    [assign_helper::assign_impl] over references held in a
    [std::tuple<Vars&...>]).

    - The compile-time half is embedded as boolean functions over the
      facts that the language and [<tuple>] give about the types involved.
    - The run-time half is embedded over an explicit store: a bound
      variable is a location, [refs] is a list of locations that may repeat
      or overlap the storage of the source, and an element assignment is a
      read followed by a write.

    [operator_assign] embeds the member template [operator=], the
    assignment operation of the specification.  [assignment_expression]
    embeds the whole expression [helper = x], in which the copy and move
    assignment that the language declares for [assign_helper] compete with
    the template. *)

From stdpp Require Import base option list gmap strings.
From Stdlib Require Import ZArith.

#[local] Set Warnings "-clear-no-such-hyp".

(** ** What the header takes from the language and the standard library *)

(** Storage locations of objects. *)
Abbreviation loc := positive (only parsing).

(** The types and values of a program, with the three facts about
    assignment that the header relies on.
    - [std_assignable_from V E] is the library concept
      [std::assignable_from<V&, E>].
    - [copy_assignable V E] says that [v = e] is a well-formed expression
      for an lvalue [v] of type [V] and an element [e] of type [E] read
      through [const Tuple&]; this is the expression of the fold in
      [assign_impl].
    - [converted V E x] is the value a variable of type [V] holds after
      that assignment when [e] holds [x]; an assignment is taken to
      depend on its right operand only.
    - [self_assignable V] says that [v = w] is well-formed for two
      lvalues of type [V]; the copy and the move assignment of
      [std::tuple<V&>] ask for it. *)
Class TypeSystem := {
  ty : Type;
  val : Type;
  std_assignable_from : ty → ty → bool;
  copy_assignable : ty → ty → bool;
  converted : ty → ty → val → val;
  self_assignable : ty → bool
}.

Section assign_h.
Context `{TS : TypeSystem}.

(** How an expression fares where it is written: it is well-formed; or
    it is ill-formed in the immediate context, which a requires-expression
    turns into an unsatisfied requirement; or it is ill-formed outside the
    immediate context (a static assertion in a class the expression
    instantiates), which is an error of the program wherever the
    expression stands. *)
Inductive validity := Well_formed | Substitution_failure | Hard_failure.

(** What [<tuple>] answers about a type [Tup]: [std::tuple_size<Tup>::value]
    when it is well-formed, how the call [std::get<I>(t)] fares, and
    [std::tuple_element_t<I, Tup>] when it is well-formed. *)
Record tuple_traits := {
  tuple_size : option nat;
  std_get : nat → validity;
  tuple_element : nat → option ty
}.

(** The call [std::get<I>(t)] is a well-formed expression. *)
Definition get_valid (T : tuple_traits) (I : nat) : bool :=
  match std_get T I with
  | Well_formed => true
  | _ => false
  end.

(** The traits of [std::tuple<Ts...>].  The return type of [std::get<I>]
    on a tuple names [std::tuple_element<I, std::tuple<Ts...>>], whose
    static assertion on the range of [I] fails outside the immediate
    context. *)
Definition std_tuple (Ts : list ty) : tuple_traits :=
  {| tuple_size := Some (length Ts);
     std_get I := if bool_decide (I < length Ts) then Well_formed
                  else Hard_failure;
     tuple_element I := Ts !! I |}.

(** The traits of [std::array<T, N>].  [std::get<I>] on an array is
    declared for every [I]; its bound is a static assertion inside the
    function body, which an unevaluated operand does not instantiate. *)
Definition std_array (T : ty) (N : nat) : tuple_traits :=
  {| tuple_size := Some N;
     std_get I := Well_formed;
     tuple_element I := if bool_decide (I < N) then Some T else None |}.

(** ** Compile-time half *)

(** What checking a constraint gives. *)
Inductive satisfaction := Satisfied | Unsatisfied | Ill_formed_check.

(** [concept tuple_like] (assign.h, lines 9-14): the two requirements of
    its requires-expression, checked in their order:
    [std::tuple_size<T>::value], then [std::get<0>(t)] at the literal
    index 0.  A failure of the second one outside the immediate context
    is an error of the program, not an unsatisfied concept. *)
Definition tuple_like (T : tuple_traits) : satisfaction :=
  match tuple_size T with
  | Some _ =>
      match std_get T 0 with
      | Well_formed => Satisfied
      | Substitution_failure => Unsatisfied
      | Hard_failure => Ill_formed_check
      end
  | None => Unsatisfied
  end.

(** [concept assignable_from<Var, TupElem>] (lines 17-18), which is
    [std::assignable_from<Var&, TupElem>]. *)
Definition assignable_from (Var TupElem : ty) : bool :=
  std_assignable_from Var TupElem.

(** The generic lambda in the requires-clause of [operator=] (lines
    32-34), called on the index sequence that starts at [I]: the value of
    the fold
    [(assignable_from<Vars, std::tuple_element_t<Is, Tup>> && ...)], or
    [None] when one of the [std::tuple_element_t] is ill-formed. *)
Fixpoint fold_assignable (Vars : list ty) (Tup : tuple_traits) (I : nat)
    : option bool :=
  match Vars with
  | [] => Some true
  | Var :: Vars' =>
      TupElem ← tuple_element Tup I;
      rest ← fold_assignable Vars' Tup (S I);
      Some (assignable_from Var TupElem && rest)
  end.

(** The verdict of overload resolution on the member template. *)
Inductive candidacy :=
  | Excluded      (* constraints not satisfied: not a candidate *)
  | Ill_formed    (* checking the constraints is itself an error *)
  | Viable.

(** The constraints of [operator=] (lines 29-35), checked left to right:
    [template<tuple_like Tup>], then the comparison
    [sizeof...(Vars) == std::tuple_size_v<Tup>], then the
    requires-expression.  Its single requirement is a simple requirement:
    it asks that the call of the lambda be a well-formed expression and
    does not look at the value the call returns. *)
Definition operator_assign_requires (Vars : list ty) (Tup : tuple_traits)
    : candidacy :=
  match tuple_like Tup with
  | Unsatisfied => Excluded
  | Ill_formed_check => Ill_formed
  | Satisfied =>
      if negb (bool_decide (tuple_size Tup = Some (length Vars))) then Excluded
      else match fold_assignable Vars Tup 0 with
           | Some _ => Viable
           | None => Ill_formed
           end
  end.

(** Instantiating the fold of [assign_impl] (line 51) from index [I] on:
    each [std::get<Is>(refs) = std::get<Is>(tup)] has to be well-formed. *)
Fixpoint assign_impl_well_formed (Vars : list ty) (Tup : tuple_traits)
    (I : nat) : bool :=
  match Vars with
  | [] => true
  | Var :: Vars' =>
      get_valid Tup I
      && match tuple_element Tup I with
         | Some TupElem => copy_assignable Var TupElem
         | None => false
         end
      && assign_impl_well_formed Vars' Tup (S I)
  end.

(** ** Run-time half *)

(** An argument of the constructor and of the factory: an lvalue. *)
Record lvalue := Lvalue { lv_type : ty; lv_loc : loc }.

(** [assign_helper<Vars...>] with its only data member,
    [std::tuple<Vars&...> refs] (line 45): one reference per type of the
    pack, nothing keeping two of them from naming the same variable. *)
Record assign_helper := {
  Vars : list ty;
  refs : list loc
}.

(** The constructor [assign_helper(Vars&... vars) : refs(vars...)]
    (line 26). *)
Definition assign_helper_ctor (vars : list lvalue) : assign_helper :=
  {| Vars := lv_type <$> vars; refs := lv_loc <$> vars |}.

(** The factory [assign] (lines 58-62). *)
Definition assign (vars : list lvalue) : assign_helper :=
  assign_helper_ctor vars.

(** One element assignment that took place. *)
Record event := Assigned { index : nat; target : loc; stored : val }.

(** The store, and the element assignments performed so far. *)
Record machine := Machine {
  mem : gmap loc val;
  trace : list event
}.

(** One operand of the fold, [std::get<I>(refs) = std::get<I>(tup)].  The
    source [tup] is a value of type [Tup], given by the storage of its
    elements.  Reading or writing storage that is not alive has no
    defined behaviour ([None]). *)
Definition element_assignment (this : assign_helper) (Tup : tuple_traits)
    (tup : list loc) (I : nat) (s : machine) : option machine :=
  Var ← Vars this !! I;
  TupElem ← tuple_element Tup I;
  dst ← refs this !! I;
  src ← tup !! I;
  x ← mem s !! src;
  _ ← mem s !! dst;
  let v := converted Var TupElem x in
  Some {| mem := <[dst := v]> (mem s);
          trace := trace s ++ [Assigned I dst v] |}.

(** [assign_impl(tup, std::index_sequence<Is...>)] (lines 48-52): the
    fold over the comma operator, its operands evaluated from left to
    right, an empty pack doing nothing. *)
Fixpoint assign_impl (this : assign_helper) (Tup : tuple_traits)
    (tup : list loc) (Is : list nat) (s : machine) : option machine :=
  match Is with
  | [] => Some s
  | i :: Is' =>
      s' ← element_assignment this Tup tup i s;
      assign_impl this Tup tup Is' s'
  end.

(** What becomes of a use of the member template [operator=] in an
    expression [helper = tup]: the template is excluded from the
    candidates, the program is ill-formed, the behaviour is undefined, or
    the call returns [*this], with the store it leaves and the element
    assignments it performed. *)
Inductive outcome :=
  | Not_a_candidate
  | Hard_error
  | Undefined
  | Returned (self : assign_helper) (σ : gmap loc val) (log : list event).

(** [assign_helper::operator=] (lines 29-41): overload resolution,
    instantiation of the body, then
    [assign_impl(tup, std::index_sequence_for<Vars...>{})] and
    [return *this]. *)
Definition operator_assign (this : assign_helper) (Tup : tuple_traits)
    (tup : list loc) (σ : gmap loc val) : outcome :=
  match operator_assign_requires (Vars this) Tup with
  | Excluded => Not_a_candidate
  | Ill_formed => Hard_error
  | Viable =>
      if assign_impl_well_formed (Vars this) Tup 0 then
        match assign_impl this Tup tup (seq 0 (length (Vars this)))
                (Machine σ []) with
        | Some s => Returned this (mem s) (trace s)
        | None => Undefined
        end
      else Hard_error
  end.

(** ** The whole expression [helper = x] *)

(** The operators that an expression [helper = x] can call: the member
    template, and the copy or move assignment that the language declares
    for [assign_helper], the class declaring none of its own. *)
Inductive operator := Member_template | Implicit_assignment.

(** The right operand [x], as far as the choice of the operator and its
    evaluation look at it: what [<tuple>] says of its type; the storage of
    its elements, which [std::get] reaches; for a type [V], the storage of
    the object when [x] is a non-const lvalue that a [V&] binds to; and the
    references it holds when [x] is itself an assigner of the type of the
    left operand.  An operand with a conversion function of its own to
    that type is not covered. *)
Record operand := {
  op_traits : tuple_traits;
  op_elems : list loc;
  op_binds : ty → option loc;
  op_assigner : option (list loc)
}.

(** The implicit conversion of [x] to [assign_helper<Vars...>] through the
    constructor of line 26, which is not declared explicit and so converts
    when the pack has one type. *)
Definition converting_constructor (Vars : list ty) (x : operand)
    : option assign_helper :=
  match Vars with
  | [Var] => l ← op_binds x Var; Some (assign_helper_ctor [Lvalue Var l])
  | _ => None
  end.

(** What becomes of an expression [helper = x]: overload resolution finds
    no operator, the program is ill-formed, the behaviour is undefined, or
    one of the operators is called and returns. *)
Inductive expression :=
  | No_viable_operator
  | Build_error
  | Undefined_evaluation
  | Evaluated (called : operator) (self : assign_helper)
      (σ : gmap loc val) (log : list event).

(** The implicitly declared assignment, [refs = other.refs]: a
    [std::tuple<Vars&...>] assigns through its references, element by
    element and each from an lvalue of the same type; it is deleted unless
    every type of the pack is assignable so. *)
Definition implicit_assignment (this other : assign_helper)
    (σ : gmap loc val) : expression :=
  if forallb self_assignable (Vars this) then
    match assign_impl this (std_tuple (Vars this)) (refs other)
            (seq 0 (length (Vars this))) (Machine σ []) with
    | Some s => Evaluated Implicit_assignment this (mem s) (trace s)
    | None => Undefined_evaluation
    end
  else Build_error.

(** Overload resolution for [helper = x].  The constraints of the member
    template are checked whatever [x] is.  An operand that is an assigner
    of the same type is an exact match for the implicit assignment, which
    is preferred to a template.  Otherwise a viable member template is the
    exact match and is preferred to a conversion of [x]; and when the
    template is excluded, the implicit assignment is called if the
    constructor converts [x]. *)
Definition assignment_expression (this : assign_helper) (x : operand)
    (σ : gmap loc val) : expression :=
  match operator_assign_requires (Vars this) (op_traits x), op_assigner x with
  | Ill_formed, _ => Build_error
  | _, Some refs' =>
      implicit_assignment this {| Vars := Vars this; refs := refs' |} σ
  | Viable, None =>
      match operator_assign this (op_traits x) (op_elems x) σ with
      | Returned self σ' log => Evaluated Member_template self σ' log
      | Undefined => Undefined_evaluation
      | _ => Build_error
      end
  | Excluded, None =>
      match converting_constructor (Vars this) x with
      | Some other => implicit_assignment this other σ
      | None => No_viable_operator
      end
  end.

(** ** Vocabulary of the statements *)

(** The use of the member template compiles: it is a viable candidate and
    its body instantiates. *)
Definition builds (Vars : list ty) (Tup : tuple_traits) : bool :=
  match operator_assign_requires Vars Tup with
  | Viable => assign_impl_well_formed Vars Tup 0
  | _ => false
  end.

(** Every location of [ls] is alive storage of [σ]. *)
Definition alive (σ : gmap loc val) (ls : list loc) : Prop :=
  Forall (λ l, is_Some (σ !! l)) ls.

(** No element of the source is stored in a bound variable. *)
Definition apart (tup refs : list loc) : Prop :=
  Forall (λ l, l ∉ refs) tup.


(** The store that the element assignments of a trace leave, applied in
    their order to [σ]. *)
Definition replay (log : list event) (σ : gmap loc val) : gmap loc val :=
  foldl (λ m e, <[target e := stored e]> m) σ log.

(** An event of a fold that started [n] positions further on. *)
Definition shift (n : nat) (e : event) : event :=
  Assigned (n + index e) (target e) (stored e).

End assign_h.

(** ** A small instance: four C++ types *)

Module Cxx.

(** [int], [unsigned char], [const char*], [std::unique_ptr<int>] and
    [std::tuple<int, int>]. *)
Inductive type := t_int | t_uchar | t_cstr | t_unique_ptr | t_tuple_int_int.

(** An integer, the text a [const char*] points to, the address a
    [std::unique_ptr<int>] owns, or the two elements of a
    [std::tuple<int, int>]. *)
Inductive value :=
  | v_int (z : Z)
  | v_cstr (s : string)
  | v_ptr (p : option loc)
  | v_tuple (z1 z2 : Z).

(** [std::assignable_from<V&, E>]: the arithmetic types convert into
    each other, a pointer to characters is assigned from its own type
    only, and a [std::unique_ptr] is assigned from an rvalue of its own
    type, by move. *)
Definition assignable_from_rvalue (V E : type) : bool :=
  match V, E with
  | (t_int | t_uchar), (t_int | t_uchar) => true
  | t_cstr, t_cstr => true
  | t_unique_ptr, t_unique_ptr => true
  | t_tuple_int_int, t_tuple_int_int => true
  | _, _ => false
  end.

(** [v = e] with [e] a const lvalue: as above, except that the copy
    assignment of [std::unique_ptr] is deleted. *)
Definition assignable_from_const_lvalue (V E : type) : bool :=
  match V, E with
  | (t_int | t_uchar), (t_int | t_uchar) => true
  | t_cstr, t_cstr => true
  | t_tuple_int_int, t_tuple_int_int => true
  | _, _ => false
  end.

(** The value stored: an integer assigned to an [unsigned char] is
    reduced modulo 256, every other assignment keeps the value. *)
Definition assigned_value (V E : type) (x : value) : value :=
  match V, x with
  | t_uchar, v_int z => v_int (z mod 256)
  | _, _ => x
  end.

(** [v = w] for two lvalues of one type: every type but
    [std::unique_ptr]. *)
Definition assignable_from_own_lvalue (V : type) : bool :=
  match V with
  | t_unique_ptr => false
  | _ => true
  end.

#[export] Instance type_system : TypeSystem :=
  Build_TypeSystem type value assignable_from_rvalue
    assignable_from_const_lvalue assigned_value assignable_from_own_lvalue.

(** [int a = 0; const char* b = "-"] at locations 1 and 2, the tuples
    [(42, "hello")] at locations 3 and 4 and [(7, "world")] at locations 5
    and 6, a null [std::unique_ptr<int>] at location 7 and an owning one
    at location 8. *)
Definition σ_text : gmap loc value :=
  list_to_map [(1, v_int 0); (2, v_cstr "-"); (3, v_int 42);
               (4, v_cstr "hello"); (5, v_int 7); (6, v_cstr "world");
               (7, v_ptr None); (8, v_ptr (Some 9))]%positive.

(** Six objects of type [int], at locations 1 to 6, holding 10, 20, 1, 2, 3
    and 300, and an [unsigned char] at location 7, holding 0. *)
Definition σ_ints : gmap loc value :=
  list_to_map [(1, v_int 10); (2, v_int 20); (3, v_int 1);
               (4, v_int 2); (5, v_int 3); (6, v_int 300);
               (7, v_int 0)]%positive.

(** The arguments [(a, b)] of the factory, [a] an [int] at location 1 and
    [b] a [const char*] at location 2. *)
Definition a_b : list lvalue := [Lvalue t_int 1; Lvalue t_cstr 2].

(** Two [int] variables at locations [la] and [lb], which may coincide, and
    three at [la], [lb] and [lc]. *)
Definition ints2 (la lb : loc) : list lvalue :=
  [Lvalue t_int la; Lvalue t_int lb].
Definition ints3 (la lb lc : loc) : list lvalue :=
  [Lvalue t_int la; Lvalue t_int lb; Lvalue t_int lc].

(** The tuple types of the examples. *)
Definition tuple_int_cstr : tuple_traits := std_tuple [t_int; t_cstr].
Definition tuple_int_int : tuple_traits := std_tuple [t_int; t_int].

(** A type without [std::tuple_size] and without [std::get], such as
    [int]. *)
Definition not_a_tuple : tuple_traits :=
  {| tuple_size := None;
     std_get I := Substitution_failure;
     tuple_element I := None |}.


(** [std::tuple<int, int> x{0, 0}, y{1, 2}]: [x] at location 1, [y] at
    location 2, the elements of [y] at locations 3 and 4; and two [int],
    7 at location 5 and 9 at location 6. *)
Definition σ_tuples : gmap loc value :=
  list_to_map [(1, v_tuple 0 0); (2, v_tuple 1 2); (3, v_int 1);
               (4, v_int 2); (5, v_int 7); (6, v_int 9)]%positive.

(** The argument [(x)] of the factory. *)
Definition just_x : list lvalue := [Lvalue t_tuple_int_int 1].

(** The operand [y]: a tuple of two elements and a non-const lvalue of
    type [std::tuple<int, int>]. *)
Definition operand_y : operand :=
  {| op_traits := tuple_int_int;
     op_elems := [3; 4]%positive;
     op_binds V := match V with
                   | t_tuple_int_int => Some 2%positive
                   | _ => None
                   end;
     op_assigner := None |}.

(** The operand [n], the [int] at location 6: not a tuple, and a
    non-const lvalue of type [int]. *)
Definition operand_n : operand :=
  {| op_traits := not_a_tuple;
     op_elems := [];
     op_binds V := match V with
                   | t_int => Some 6%positive
                   | _ => None
                   end;
     op_assigner := None |}.

End Cxx.

(** Closed goals over concrete stores and lists are decided by evaluation. *)
Ltac by_computation := unfold alive, apart; compute_done.

(** ** Facts about the fold of [assign_impl] *)

Section assign_impl_facts.
Context `{TS : TypeSystem}.
Variables (this : assign_helper) (Tup : tuple_traits) (tup : list loc).

Lemma element_assignment_Some i s s' :
  element_assignment this Tup tup i s = Some s' →
  ∃ Var TupElem dst src x,
    Vars this !! i = Some Var ∧ tuple_element Tup i = Some TupElem ∧
    refs this !! i = Some dst ∧ tup !! i = Some src ∧
    mem s !! src = Some x ∧ is_Some (mem s !! dst) ∧
    s' = Machine (<[dst := converted Var TupElem x]> (mem s))
                 (trace s ++ [Assigned i dst (converted Var TupElem x)]).
Proof.
  unfold element_assignment. intros Hs.
  destruct (Vars this !! i) as [Var|] eqn:HV; [|done].
  destruct (tuple_element Tup i) as [TupElem|] eqn:HE; [|done].
  destruct (refs this !! i) as [dst|] eqn:Hd; [|done].
  destruct (tup !! i) as [src|] eqn:Hsrc; [|done]. simpl in Hs.
  destruct (mem s !! src) as [x|] eqn:Hx; [|done]. simpl in Hs.
  destruct (mem s !! dst) as [y|] eqn:Hy; [|done]. simpl in Hs.
  exists Var, TupElem, dst, src, x. inversion_clear Hs.
  repeat split; eauto.
Qed.

(** Storage that no index of the sequence is bound to keeps its value. *)
Lemma assign_impl_frame Is : ∀ s s' l,
  assign_impl this Tup tup Is s = Some s' →
  (∀ i, i ∈ Is → refs this !! i ≠ Some l) →
  mem s' !! l = mem s !! l.
Proof.
  induction Is as [|i Is' IH]; intros s s' l Hrun Hl; simpl in Hrun.
  - by simplify_eq.
  - destruct (element_assignment this Tup tup i s) as [s1|] eqn:H1; [|done].
    simpl in Hrun.
    apply element_assignment_Some in H1
      as (Var & TupElem & dst & src & x & _ & _ & Hdst & _ & _ & _ & ->).
    rewrite (IH _ _ l Hrun); [|intros j Hj; apply Hl; by right].
    simpl. apply lookup_insert_ne. intros ->. apply (Hl i); [by left|done].
Qed.


(** The trace grows by one event per index, in the order of the
    sequence, each event writing the reference bound at its index. *)
Lemma assign_impl_trace Is : ∀ s s',
  assign_impl this Tup tup Is s = Some s' →
  ∃ new, trace s' = trace s ++ new ∧ index <$> new = Is ∧
         Forall (λ e, refs this !! index e = Some (target e)) new.
Proof.
  induction Is as [|i Is' IH]; intros s s' Hrun; simpl in Hrun.
  - simplify_eq. exists []. by rewrite app_nil_r.
  - destruct (element_assignment this Tup tup i s) as [s1|] eqn:H1; [|done].
    simpl in Hrun.
    apply element_assignment_Some in H1
      as (Var & TupElem & dst & src & x & _ & _ & Hdst & _ & _ & _ & ->).
    destruct (IH _ _ Hrun) as (new & Htr & Hidx & Hall). simpl in Htr.
    exists (Assigned i dst (converted Var TupElem x) :: new).
    split; [by rewrite Htr, <- app_assoc|].
    split; [by rewrite fmap_cons, Hidx|].
    by constructor.
Qed.


(** The fold runs to its end when every index of the sequence has a
    variable, an element type and alive storage on both sides. *)
Lemma assign_impl_runs Is : ∀ s,
  (∀ i, i ∈ Is → is_Some (Vars this !! i) ∧ is_Some (tuple_element Tup i) ∧
                  is_Some (refs this !! i) ∧ is_Some (tup !! i)) →
  (∀ l, l ∈ refs this → is_Some (mem s !! l)) →
  (∀ l, l ∈ tup → is_Some (mem s !! l)) →
  is_Some (assign_impl this Tup tup Is s).
Proof.
  induction Is as [|i Is' IH]; intros s HIs Hr Ht; simpl; [done|].
  destruct (HIs i) as ([Var HV] & [E HE] & [dst Hd] & [src Hs]); [by left|].
  destruct (Ht src) as [x Hx]; [apply list_elem_of_lookup; eauto|].
  destruct (Hr dst) as [y Hy]; [apply list_elem_of_lookup; eauto|].
  unfold element_assignment. rewrite HV, HE, Hd, Hs. simpl.
  rewrite Hx. simpl. rewrite Hy. simpl.
  apply IH; simpl.
  - intros j Hj. apply HIs. by right.
  - intros l Hl. rewrite lookup_insert_is_Some. destruct (decide (dst = l)); eauto.
  - intros l Hl. rewrite lookup_insert_is_Some. destruct (decide (dst = l)); eauto.
Qed.

End assign_impl_facts.

(** ** Facts about [operator=] *)

Section operator_assign_facts.
Context `{TS : TypeSystem}.

Lemma alive_lookup (σ : gmap loc val) ls i l :
  alive σ ls → ls !! i = Some l → is_Some (σ !! l).
Proof. intros Ha Hl. exact (proj1 (Forall_lookup _ _) Ha i l Hl). Qed.


(** What the requires-clause decides: it is satisfied exactly when the
    type is [tuple_like], reports the arity of the pack and names an
    element type at every index; the values of [assignable_from] play no
    part. *)
Lemma fold_assignable_is_Some Vars Tup : ∀ k,
  is_Some (fold_assignable Vars Tup k) ↔
  ∀ i, i < length Vars → is_Some (tuple_element Tup (k + i)).
Proof.
  induction Vars as [|V Vs IH]; intros k; simpl.
  - split; [intros _ i Hi; lia|eauto].
  - split.
    + intros [b Hb] i Hi.
      destruct (tuple_element Tup k) as [E|] eqn:HE; [|done]. simpl in Hb.
      destruct (fold_assignable Vs Tup (S k)) as [r|] eqn:Hr; [|done].
      destruct i as [|i].
      * rewrite Nat.add_0_r, HE. eauto.
      * replace (k + S i) with (S k + i) by lia.
        apply (proj1 (IH (S k))); [rewrite Hr; eauto|lia].
    + intros Hall.
      destruct (Hall 0) as [E HE]; [lia|]. rewrite Nat.add_0_r in HE.
      rewrite HE. simpl.
      destruct (proj2 (IH (S k))) as [r Hr].
      * intros i Hi. replace (S k + i) with (k + S i) by lia.
        apply Hall. lia.
      * rewrite Hr. simpl. eauto.
Qed.

Lemma operator_assign_requires_Viable Vars Tup :
  operator_assign_requires Vars Tup = Viable ↔
  tuple_like Tup = Satisfied ∧ tuple_size Tup = Some (length Vars) ∧
  ∀ i, i < length Vars → is_Some (tuple_element Tup i).
Proof.
  unfold operator_assign_requires.
  pose proof (fold_assignable_is_Some Vars Tup 0) as Hfold. simpl in Hfold.
  destruct (tuple_like Tup); simpl; [|naive_solver..].
  case_bool_decide as Hsz; simpl; [|naive_solver].
  destruct (fold_assignable Vars Tup 0) as [b|].
  - split; [intros _|done]. repeat split; [done|]. apply Hfold. eauto.
  - split; [done|]. intros (_ & _ & Hall). apply Hfold in Hall.
    by destruct Hall.
Qed.


(** A count other than the number of variables keeps the template from
    being viable. *)
Lemma operator_assign_requires_arity Vars Tup :
  tuple_size Tup ≠ Some (length Vars) →
  operator_assign_requires Vars Tup ≠ Viable.
Proof. intros Hne (_ & Hsz & _)%operator_assign_requires_Viable. done. Qed.

(** What instantiating the body asks of every index. *)
Lemma assign_impl_well_formed_true Vars Tup : ∀ k,
  assign_impl_well_formed Vars Tup k = true ↔
  ∀ i Var, Vars !! i = Some Var →
    get_valid Tup (k + i) = true ∧
    ∃ TupElem, tuple_element Tup (k + i) = Some TupElem ∧
               copy_assignable Var TupElem = true.
Proof.
  induction Vars as [|V Vs IH]; intros k; simpl.
  - split; [intros _ i Var Hi; done|done].
  - rewrite !andb_true_iff, (IH (S k)). split.
    + intros [[Hg He] Hrest] [|i] Var Hi; simpl in Hi.
      * simplify_eq. rewrite Nat.add_0_r. split; [done|].
        destruct (tuple_element Tup k) as [E|]; [eauto|done].
      * replace (k + S i) with (S k + i) by lia. by apply Hrest.
    + intros Hall. destruct (Hall 0 V eq_refl) as [Hg (E & HE & Hc)].
      rewrite Nat.add_0_r in Hg, HE. rewrite Hg, HE.
      split; [by split|].
      intros i Var Hi. replace (S k + i) with (k + S i) by lia.
      by apply Hall.
Qed.

Lemma builds_true Vars Tup :
  builds Vars Tup = true ↔
  operator_assign_requires Vars Tup = Viable ∧
  assign_impl_well_formed Vars Tup 0 = true.
Proof.
  unfold builds. destruct (operator_assign_requires Vars Tup); naive_solver.
Qed.

(** A returning call went through the constraints, instantiated the
    body, ran the whole fold and handed back its own object. *)
Lemma operator_assign_Returned this Tup tup σ self σ' log :
  operator_assign this Tup tup σ = Returned self σ' log ↔
  builds (Vars this) Tup = true ∧ self = this ∧
  assign_impl this Tup tup (seq 0 (length (Vars this))) (Machine σ [])
    = Some (Machine σ' log).
Proof.
  unfold operator_assign, builds.
  destruct (operator_assign_requires (Vars this) Tup); [naive_solver..|].
  destruct (assign_impl_well_formed (Vars this) Tup 0); [|naive_solver].
  destruct (assign_impl _ _ _ _ _) as [[σ1 log1]|]; simpl; naive_solver.
Qed.

(** A call that builds, on alive storage and a source with one element
    per bound variable, returns. *)
Lemma operator_assign_runs vars Tup tup σ :
  builds (lv_type <$> vars) Tup = true →
  length tup = length vars →
  alive σ (lv_loc <$> vars) → alive σ tup →
  ∃ σ' log,
    operator_assign (assign vars) Tup tup σ = Returned (assign vars) σ' log.
Proof.
  intros Hb Hlen Hrefs Htup.
  destruct (assign_impl_runs (assign vars) Tup tup
              (seq 0 (length (Vars (assign vars)))) (Machine σ []))
    as [[σ' log] Hrun].
  - intros i Hi. apply elem_of_seq in Hi as [_ Hi]. simpl in *.
    rewrite length_fmap in Hi.
    apply builds_true in Hb as [Hreq _].
    apply operator_assign_requires_Viable in Hreq as (_ & _ & Hel).
    rewrite length_fmap in Hel.
    repeat split; [| by apply Hel | |]; apply lookup_lt_is_Some;
      rewrite ?length_fmap; lia.
  - intros l Hl. simpl in *. by eapply (proj1 (Forall_forall _ _) Hrefs).
  - intros l Hl. simpl in *. by eapply (proj1 (Forall_forall _ _) Htup).
  - exists σ', log. by apply operator_assign_Returned.
Qed.

(** The targets of a full trace are the references, in their order. *)
Lemma full_trace_targets (this : assign_helper) (new : list event) :
  length (refs this) = length (Vars this) →
  index <$> new = seq 0 (length (Vars this)) →
  Forall (λ e, refs this !! index e = Some (target e)) new →
  target <$> new = refs this.
Proof.
  intros Hlen Hidx Hall. apply list_eq. intros i.
  rewrite list_lookup_fmap.
  assert (length new = length (Vars this)) as Hn.
  { by rewrite <- (length_fmap index), Hidx, length_seq. }
  destruct (new !! i) as [e|] eqn:He; simpl.
  - assert (index e = i) as Hi.
    { assert ((index <$> new) !! i = Some (index e)) as H1
        by (by rewrite list_lookup_fmap, He).
      rewrite Hidx in H1. apply lookup_seq in H1. lia. }
    rewrite <- Hi. symmetry.
    exact (proj1 (Forall_lookup _ _) Hall i e He).
  - symmetry. apply lookup_ge_None. apply lookup_ge_None in He. lia.
Qed.

(** A returning call changes no storage outside its references. *)
Lemma operator_assign_frame this Tup tup σ self σ' log l :
  operator_assign this Tup tup σ = Returned self σ' log →
  l ∉ refs this → σ' !! l = σ !! l.
Proof.
  intros Hop Hl. apply operator_assign_Returned in Hop as (_ & _ & Hrun).
  apply (assign_impl_frame _ _ _ _ _ _ l Hrun).
  intros i _ Hi. apply Hl. apply list_elem_of_lookup. eauto.
Qed.



(** The trace of a returning call of a helper made by the factory. *)
Lemma operator_assign_trace vars Tup tup σ self σ' log :
  operator_assign (assign vars) Tup tup σ = Returned self σ' log →
  index <$> log = seq 0 (length vars) ∧ target <$> log = lv_loc <$> vars.
Proof.
  intros Hop. apply operator_assign_Returned in Hop as (_ & _ & Hrun).
  destruct (assign_impl_trace _ _ _ _ _ _ Hrun) as (new & Htr & Hidx & Hall).
  simpl in Htr, Hidx. subst log. rewrite length_fmap in Hidx.
  split; [done|].
  apply (full_trace_targets (assign vars)); simpl; rewrite ?length_fmap; done.
Qed.


Lemma not_builds this Tup tup σ :
  builds (Vars this) Tup = false →
  operator_assign this Tup tup σ = Not_a_candidate ∨
  operator_assign this Tup tup σ = Hard_error.
Proof.
  unfold builds, operator_assign.
  destruct (operator_assign_requires (Vars this) Tup); [by left|by right|].
  intros ->. by right.
Qed.


End operator_assign_facts.

(** ** The properties of the specification *)

Section properties.
Context `{TS : TypeSystem}.


(** A count other than the number of bound variables: the member
    template is never called. *)
Lemma arity_mismatch_template_never_called this Tup M tup σ :
  tuple_size Tup = Some M → M ≠ length (Vars this) →
  ∀ self σ' log, operator_assign this Tup tup σ ≠ Returned self σ' log.
Proof.
  intros Hsz Hne self σ' log [Hb _]%operator_assign_Returned.
  apply builds_true in Hb as [Hreq _].
  apply operator_assign_requires_Viable in Hreq as (_ & Hsz' & _).
  congruence.
Qed.


(** C6.  A returning assignment hands back the assigner it was called on;
    a further assignment through what it returned writes the variables
    bound at construction, and nothing else. *)
Theorem returns_its_own_assigner vars Tup tup σ self σ' log :
  operator_assign (assign vars) Tup tup σ = Returned self σ' log →
  self = assign vars ∧
  ∀ Tup2 tup2 self2 σ2 log2,
    operator_assign self Tup2 tup2 σ' = Returned self2 σ2 log2 →
    self2 = assign vars ∧
    target <$> log2 = lv_loc <$> vars ∧
    ∀ l, l ∉ lv_loc <$> vars → σ2 !! l = σ' !! l.
Proof.
  intros Hop.
  pose proof (proj1 (operator_assign_Returned _ _ _ _ _ _ _) Hop)
    as (_ & -> & _).
  split; [done|]. intros Tup2 tup2 self2 σ2 log2 Hop2.
  pose proof (proj1 (operator_assign_Returned _ _ _ _ _ _ _) Hop2)
    as (_ & -> & _).
  split; [done|].
  split; [exact (proj2 (operator_assign_trace _ _ _ _ _ _ _ Hop2))|].
  intros l Hl. by apply (operator_assign_frame _ _ _ _ _ _ _ l Hop2).
Qed.




(** C10, as amended.  The factory builds an assigner from zero
    variables.  Its member template accepts no value whose type lacks
    positional access at index 0, although an element count of 0 equals
    the bound arity: for an empty [std::tuple], where [std::get<0>] fails
    outside the immediate context, the check of the constraint is an
    error of the program.  A type of count 0 on which the call
    [std::get<0>] is nevertheless well-formed, such as
    [std::array<T, 0>], is accepted, and the assignment then performs no
    element assignment. *)
Theorem zero_arity_assigner Tup tup σ :
  assign [] = {| Vars := []; refs := [] |} ∧
  (std_get Tup 0 ≠ Well_formed →
     ∀ self σ' log,
       operator_assign (assign []) Tup tup σ ≠ Returned self σ' log) ∧
  (tuple_size Tup = Some 0 → std_get Tup 0 = Hard_failure →
     operator_assign (assign []) Tup tup σ = Hard_error) ∧
  (tuple_size Tup = Some 0 → std_get Tup 0 = Well_formed →
     operator_assign (assign []) Tup tup σ = Returned (assign []) σ []).
Proof.
  split; [done|]. unfold operator_assign, operator_assign_requires, tuple_like.
  simpl. split; [|split].
  - intros Hno self σ' log.
    destruct (tuple_size Tup); [|done].
    by destruct (std_get Tup 0).
  - by intros -> ->.
  - by intros -> ->.
Qed.

End properties.

(** ** The properties on concrete programs *)

Import Cxx.

Local Open Scope positive_scope.



(** C2 on the code.  [int a, b; assign(a, b) = std::make_tuple(42, "hello")]:
    [assignable_from<int, const char*>] is false and the fold of the
    lambda is false, yet the requires-clause is satisfied, because its
    requirement only asks that the call of the lambda be well-formed.  The
    operation is a viable candidate and the error comes from
    instantiating the body. *)
Example element_mismatch_is_not_excluded :
  assignable_from t_int t_cstr = false ∧
  fold_assignable [t_int; t_int] tuple_int_cstr 0 = Some false ∧
  operator_assign_requires [t_int; t_int] tuple_int_cstr = Viable ∧
  operator_assign (assign (ints2 1 2)) tuple_int_cstr [3; 4] σ_text
    = Hard_error.
Proof. repeat split. Qed.



(** The assigner returned by [assign(a, b) = (42, "hello")] is
    [assign(a, b)] itself, and assigning [(7, "world")] through it writes
    [a] and [b]. *)
Lemma returns_its_own_assigner_witness :
  operator_assign (assign a_b) tuple_int_cstr [3; 4] σ_text
    = Returned (assign a_b)
        (<[1 := v_int 42]> (<[2 := v_cstr "hello"]> σ_text))
        [Assigned 0 1 (v_int 42); Assigned 1 2 (v_cstr "hello")] ∧
  operator_assign (assign a_b) tuple_int_cstr [5; 6]
      (<[1 := v_int 42]> (<[2 := v_cstr "hello"]> σ_text))
    = Returned (assign a_b)
        (<[1 := v_int 7]> (<[2 := v_cstr "world"]> σ_text))
        [Assigned 0 1 (v_int 7); Assigned 1 2 (v_cstr "world")] ∧
  target <$> [Assigned 0 1 (v_int 7); Assigned 1 2 (v_cstr "world")]
    = lv_loc <$> a_b.
Proof.
  assert (operator_assign (assign a_b) tuple_int_cstr [3; 4] σ_text
          = Returned (assign a_b)
              (<[1 := v_int 42]> (<[2 := v_cstr "hello"]> σ_text))
              [Assigned 0 1 (v_int 42); Assigned 1 2 (v_cstr "hello")])
    as Hop1 by (vm_compute; reflexivity).
  assert (operator_assign (assign a_b) tuple_int_cstr [5; 6]
              (<[1 := v_int 42]> (<[2 := v_cstr "hello"]> σ_text))
          = Returned (assign a_b)
              (<[1 := v_int 7]> (<[2 := v_cstr "world"]> σ_text))
              [Assigned 0 1 (v_int 7); Assigned 1 2 (v_cstr "world")])
    as Hop2 by (vm_compute; reflexivity).
  split; [exact Hop1|]. split; [exact Hop2|].
  exact (proj1 (proj2 (proj2 (returns_its_own_assigner a_b tuple_int_cstr
                                [3; 4] σ_text _ _ _ Hop1)
                         tuple_int_cstr [5; 6] _ _ _ Hop2))).
Defined.







(** C10 as stated fails on the code: [assign() = std::array<int, 0>{}]
    is accepted.  The type reports zero elements, and [std::get<0>] is a
    well-formed call on it. *)
Lemma zero_arity_assigner_counterexample :
  tuple_size (std_array t_int 0) = Some 0%nat ∧
  tuple_like (std_array t_int 0) = Satisfied ∧
  builds (Vars (assign [])) (std_array t_int 0) = true ∧
  operator_assign (assign []) (std_array t_int 0) [] σ_ints
    = Returned (assign []) σ_ints [].
Proof. repeat split. Qed.

(** [assign() = std::tuple<>{}] is an error in the check of the
    constraint, [assign() = std::array<int, 0>{}] is accepted and assigns
    nothing. *)
Lemma zero_arity_assigner_witness :
  (tuple_size (std_tuple []) = Some 0%nat ∧
   std_get (std_tuple []) 0 = Hard_failure ∧
   tuple_size (std_array t_int 0) = Some 0%nat ∧
   std_get (std_array t_int 0) 0 = Well_formed) ∧
  operator_assign (assign []) (std_tuple []) [] σ_ints = Hard_error ∧
  operator_assign (assign []) (std_array t_int 0) [] σ_ints
    = Returned (assign []) σ_ints [].
Proof.
  split; [done|]. split.
  - exact (proj1 (proj2 (proj2 (zero_arity_assigner (std_tuple []) []
                                  σ_ints))) eq_refl eq_refl).
  - exact (proj2 (proj2 (proj2 (zero_arity_assigner (std_array t_int 0) []
                                  σ_ints))) eq_refl eq_refl).
Defined.

Local Close Scope positive_scope.

(** ** Replaying a trace *)

Section replay_facts.
Context `{TS : TypeSystem}.

Lemma replay_snoc log e (σ : gmap loc val) :
  replay (log ++ [e]) σ = <[target e := stored e]> (replay log σ).
Proof. unfold replay. by rewrite foldl_app. Qed.

Lemma replay_app log1 log2 (σ : gmap loc val) :
  replay (log1 ++ log2) σ = replay log2 (replay log1 σ).
Proof. unfold replay. by rewrite foldl_app. Qed.






End replay_facts.

(** ** The fold as a sequence of writes *)

Section fold_semantics.
Context `{TS : TypeSystem}.

Lemma assign_impl_app this Tup tup Is1 : ∀ Is2 s,
  assign_impl this Tup tup (Is1 ++ Is2) s
  = assign_impl this Tup tup Is1 s ≫= assign_impl this Tup tup Is2.
Proof.
  induction Is1 as [|i Is1 IH]; intros Is2 s; simpl; [done|].
  destruct (element_assignment this Tup tup i s) as [s1|]; simpl; [|done].
  apply IH.
Qed.

(** The fold leaves the store of its writes replayed, and its [k]-th write
    stores the converted value that the element at the [k]-th index holds
    in the store left by the writes before it. *)
Lemma assign_impl_replay this Tup tup Is : ∀ s s',
  assign_impl this Tup tup Is s = Some s' →
  ∃ new, trace s' = trace s ++ new ∧ mem s' = replay new (mem s) ∧
    length new = length Is ∧
    ∀ k e, new !! k = Some e →
      ∃ i Var TupElem src x,
        Is !! k = Some i ∧ Vars this !! i = Some Var ∧
        tuple_element Tup i = Some TupElem ∧
        refs this !! i = Some (target e) ∧ tup !! i = Some src ∧
        replay (take k new) (mem s) !! src = Some x ∧
        e = Assigned i (target e) (converted Var TupElem x).
Proof.
  induction Is as [|i Is' IH]; intros s s' Hrun; simpl in Hrun.
  - simplify_eq. exists []. rewrite app_nil_r. repeat split; done.
  - destruct (element_assignment this Tup tup i s) as [s1|] eqn:H1; [|done].
    simpl in Hrun.
    apply element_assignment_Some in H1
      as (Var & TupElem & dst & src & x & HV & HE & Hd & Hs & Hx & _ & ->).
    destruct (IH _ _ Hrun) as (new & Htr & Hmem & Hlen & Hev).
    simpl in Htr, Hmem, Hev.
    exists (Assigned i dst (converted Var TupElem x) :: new).
    split; [by rewrite Htr, <- app_assoc|].
    split; [done|]. split; [by rewrite !length_cons, Hlen|].
    intros [|k] e Hk; simpl in Hk.
    + simplify_eq. exists i, Var, TupElem, src, x. by repeat split.
    + destruct (Hev k e Hk) as (j & V' & E' & r' & x' & H).
      exists j, V', E', r', x'. exact H.
Qed.


(** When the source is stored in the bound variables themselves, position
    by position, and the conversions keep the values, no write changes the
    store. *)
Lemma assign_impl_self this Tup Is : ∀ s s',
  (∀ i Var TupElem l x,
     Vars this !! i = Some Var → tuple_element Tup i = Some TupElem →
     refs this !! i = Some l → mem s !! l = Some x →
     converted Var TupElem x = x) →
  assign_impl this Tup (refs this) Is s = Some s' → mem s' = mem s.
Proof.
  induction Is as [|i Is' IH]; intros s s' Hkeep Hrun; simpl in Hrun.
  - by simplify_eq.
  - destruct (element_assignment this Tup (refs this) i s) as [s1|] eqn:H1;
      [|done]. simpl in Hrun.
    apply element_assignment_Some in H1
      as (Var & TupElem & dst & src & x & HV & HE & Hd & Hs & Hx & _ & ->).
    assert (src = dst) as -> by congruence.
    assert (<[dst := converted Var TupElem x]> (mem s) = mem s) as Hid.
    { rewrite (Hkeep i Var TupElem dst x) by done. by apply insert_id. }
    pose proof (λ H, IH _ s' H Hrun) as Hstep. simpl in Hstep.
    rewrite Hid in Hstep. by apply Hstep.
Qed.

End fold_semantics.

(** ** Further facts about [operator=] *)

Section operator_assign_more.
Context `{TS : TypeSystem}.




(** Where the instantiation of the body fails, some index is at fault. *)
Lemma assign_impl_well_formed_culprit Vars Tup : ∀ k,
  assign_impl_well_formed Vars Tup k = false →
  ∃ i Var, Vars !! i = Some Var ∧
    (get_valid Tup (k + i) = false ∨
     ∀ TupElem, tuple_element Tup (k + i) = Some TupElem →
                copy_assignable Var TupElem = false).
Proof.
  induction Vars as [|V Vs IH]; intros k Hwf; simpl in Hwf; [done|].
  destruct (get_valid Tup k) eqn:Hg; simpl in Hwf.
  - destruct (tuple_element Tup k) as [E|] eqn:HE.
    + destruct (copy_assignable V E) eqn:Hc; simpl in Hwf.
      * destruct (IH (S k) Hwf) as (i & Var & Hi & Hbad).
        exists (S i), Var. split; [done|].
        by replace (k + S i) with (S k + i) by lia.
      * exists 0, V. split; [done|]. right. rewrite Nat.add_0_r.
        intros E' HE'. congruence.
    + exists 0, V. split; [done|]. right. rewrite Nat.add_0_r.
      intros E' HE'. congruence.
  - exists 0, V. split; [done|]. left. by rewrite Nat.add_0_r.
Qed.

Lemma fold_assignable_None Vars Tup k :
  fold_assignable Vars Tup k = None →
  ∃ i, i < length Vars ∧ tuple_element Tup (k + i) = None.
Proof.
  revert k. induction Vars as [|V Vs IH]; intros k Hf; simpl in Hf; [done|].
  destruct (tuple_element Tup k) as [E|] eqn:HE; simpl in Hf.
  - destruct (fold_assignable Vs Tup (S k)) as [r|] eqn:Hr; [done|].
    destruct (IH (S k) Hr) as (i & Hi & Hnone).
    exists (S i). split; [simpl; lia|].
    by replace (k + S i) with (S k + i) by lia.
  - exists 0. split; [simpl; lia|]. by rewrite Nat.add_0_r.
Qed.

End operator_assign_more.

(** ** The member template within the whole expression *)

Section whole_expression.
Context `{TS : TypeSystem}.

(** Where the member template returns, it is the operator that the
    expression calls, unless the operand is itself an assigner. *)
Lemma assignment_expression_template this x σ self σ' log :
  op_assigner x = None →
  operator_assign this (op_traits x) (op_elems x) σ = Returned self σ' log →
  assignment_expression this x σ = Evaluated Member_template self σ' log.
Proof.
  intros Hno Hop. unfold assignment_expression. rewrite Hno, Hop.
  apply operator_assign_Returned in Hop as ([Hreq _]%builds_true & _).
  by rewrite Hreq.
Qed.

(** Where the member template is excluded, the expression has an operator
    to call only if the operand is an assigner or the constructor
    converts it, which takes exactly one bound variable. *)
Lemma assignment_expression_no_operator this x σ :
  operator_assign_requires (Vars this) (op_traits x) = Excluded →
  op_assigner x = None →
  length (Vars this) ≠ 1 ∨ (∀ Var, op_binds x Var = None) →
  assignment_expression this x σ = No_viable_operator.
Proof.
  intros Hreq Hno Hconv. unfold assignment_expression, converting_constructor.
  rewrite Hreq, Hno.
  destruct (Vars this) as [|Var [|Var' Vars']]; [done| |done].
  destruct Hconv as [Hlen|Hbind]; [done|]. by rewrite Hbind.
Qed.

End whole_expression.

(** ** The element assignments performed *)

Section assignments_performed.
Context `{TS : TypeSystem}.

(** C4.  When the preconditions hold the operation returns having
    performed exactly [N] element assignments, one per index, in the
    order 0, 1, ..., N-1, none skipped whatever the store holds: the
    [k]-th one writes, into the variable bound at index [k], the converted
    value that element [k] of the source holds at that moment, and the
    store the operation leaves is the initial store with these [N] writes
    applied in this order. *)
Theorem element_assignments_in_index_order vars Tup tup σ :
  builds (lv_type <$> vars) Tup = true →
  length tup = length vars →
  alive σ (lv_loc <$> vars) → alive σ tup →
  ∃ σ' log,
    operator_assign (assign vars) Tup tup σ = Returned (assign vars) σ' log ∧
    length log = length vars ∧
    index <$> log = seq 0 (length vars) ∧
    target <$> log = lv_loc <$> vars ∧
    σ' = replay log σ ∧
    ∀ k e, log !! k = Some e →
      ∃ var TupElem src x,
        vars !! k = Some var ∧ tuple_element Tup k = Some TupElem ∧
        tup !! k = Some src ∧ replay (take k log) σ !! src = Some x ∧
        e = Assigned k (lv_loc var) (converted (lv_type var) TupElem x).
Proof.
  intros Hb Hlen Hrefs Htup.
  destruct (operator_assign_runs vars Tup tup σ Hb Hlen Hrefs Htup)
    as (σ' & log & Hop).
  exists σ', log. split; [done|].
  destruct (operator_assign_trace _ _ _ _ _ _ _ Hop) as [Hidx Htgt].
  split; [by rewrite <- (length_fmap index), Hidx, length_seq|].
  split; [done|]. split; [done|].
  apply operator_assign_Returned in Hop as (_ & _ & Hrun).
  destruct (assign_impl_replay _ _ _ _ _ _ Hrun)
    as (new & Htr & Hmem & _ & Hev).
  simpl in Htr, Hmem, Hev. subst new. split; [done|].
  intros k e Hk.
  destruct (Hev k e Hk)
    as (i & Var & E & src & x & Hi & HV & HE & Hd & Hs & Hx & He).
  apply lookup_seq in Hi as [-> _].
  change (Vars (assign vars)) with (lv_type <$> vars) in HV.
  change (refs (assign vars)) with (lv_loc <$> vars) in Hd. simpl in *.
  rewrite list_lookup_fmap in HV. rewrite list_lookup_fmap in Hd.
  destruct (vars !! k) as [var|] eqn:Hvar; [|done].
  simpl in HV, Hd. injection HV as <-. injection Hd as Hd.
  exists var, E, src, x. rewrite Hd. by repeat split.
Qed.

End assignments_performed.

(** ** Further properties of the header *)

Section further_properties.
Context `{TS : TypeSystem}.

(** X1.  When the member template is out of play, and how.  It is
    excluded from the candidates exactly when [tuple_like] is unsatisfied
    or, [tuple_like] being satisfied, the type reports a count other than
    the number of variables.  The program is ill-formed exactly when the
    check of [tuple_like] is itself an error or, the type passing both
    tests, some index has no accessor, or no element type that can be
    copy-assigned into the variable bound there.  The value of
    [assignable_from] plays no part. *)
Theorem compile_time_verdict this Tup tup σ :
  (operator_assign this Tup tup σ = Not_a_candidate ↔
     tuple_like Tup = Unsatisfied ∨
     tuple_like Tup = Satisfied ∧
     tuple_size Tup ≠ Some (length (Vars this))) ∧
  (operator_assign this Tup tup σ = Hard_error ↔
     tuple_like Tup = Ill_formed_check ∨
     tuple_like Tup = Satisfied ∧
     tuple_size Tup = Some (length (Vars this)) ∧
     ∃ i Var, Vars this !! i = Some Var ∧
       (get_valid Tup i = false ∨
        ∀ TupElem, tuple_element Tup i = Some TupElem →
                   copy_assignable Var TupElem = false)).
Proof.
  pose proof (assign_impl_well_formed_true (Vars this) Tup 0) as Hwf.
  pose proof (assign_impl_well_formed_culprit (Vars this) Tup 0) as Hcu.
  pose proof (fold_assignable_None (Vars this) Tup 0) as Hno.
  unfold operator_assign, operator_assign_requires.
  destruct (tuple_like Tup); simpl in *; [|naive_solver..].
  case_bool_decide as Hsz; simpl in *; [|naive_solver].
  destruct (fold_assignable (Vars this) Tup 0) as [b|].
  - destruct (assign_impl_well_formed (Vars this) Tup 0).
    + split; [split; [by destruct (assign_impl _ _ _ _ _)|naive_solver]|].
      split; [by destruct (assign_impl _ _ _ _ _)|].
      intros [?|(_ & _ & i & Var & HVar & Hbad)]; [done|].
      destruct (proj1 Hwf eq_refl i Var HVar) as [Hg (E & HE & Hc)].
      destruct Hbad as [Hbad|Hbad]; [congruence|].
      specialize (Hbad E HE). congruence.
    + split; [naive_solver|]. split; [intros _|done].
      right. split; [done|]. split; [done|]. by apply Hcu.
  - split; [naive_solver|]. split; [intros _|done].
    right. split; [done|]. split; [done|].
    destruct (Hno eq_refl) as (i & Hi & Hnone).
    destruct (lookup_lt_is_Some_2 (Vars this) i Hi) as [Var HVar].
    exists i, Var. split; [done|]. right. intros E HE. simpl in *. congruence.
Qed.

(** X2.  What a returning call does to the store, whatever overlaps
    whatever: the store it leaves is the initial store with the [N] logged
    writes applied in order, and the [k]-th write puts into the variable
    bound at index [k] the converted value that element [k] of the source
    holds after the first [k] writes. *)
Theorem writes_in_order this Tup tup σ self σ' log :
  operator_assign this Tup tup σ = Returned self σ' log →
  σ' = replay log σ ∧ length log = length (Vars this) ∧
  ∀ k e, log !! k = Some e →
    ∃ Var TupElem src x,
      Vars this !! k = Some Var ∧ tuple_element Tup k = Some TupElem ∧
      refs this !! k = Some (target e) ∧ tup !! k = Some src ∧
      replay (take k log) σ !! src = Some x ∧
      e = Assigned k (target e) (converted Var TupElem x).
Proof.
  intros Hop. apply operator_assign_Returned in Hop as (_ & _ & Hrun).
  destruct (assign_impl_replay _ _ _ _ _ _ Hrun)
    as (new & Htr & Hmem & Hlen & Hev).
  simpl in Htr, Hmem, Hev. subst new.
  split; [done|]. split; [by rewrite Hlen, length_seq|].
  intros k e Hk.
  destruct (Hev k e Hk) as (i & Var & E & src & x & Hi & H).
  apply lookup_seq in Hi as [-> _]. simpl in H.
  exists Var, E, src, x. exact H.
Qed.



(** X5.  Assigning a set of variables from a source that is stored in
    these very variables, position by position, leaves the store as it
    was, when the element assignments keep the values. *)
Theorem self_assignment_changes_nothing this Tup σ self σ' log :
  operator_assign this Tup (refs this) σ = Returned self σ' log →
  (∀ i Var TupElem l x,
     Vars this !! i = Some Var → tuple_element Tup i = Some TupElem →
     refs this !! i = Some l → σ !! l = Some x →
     converted Var TupElem x = x) →
  σ' = σ.
Proof.
  intros Hop Hkeep. apply operator_assign_Returned in Hop as (_ & _ & Hrun).
  exact (assign_impl_self this Tup _ (Machine σ []) (Machine σ' log)
           Hkeep Hrun).
Qed.


End further_properties.

(** ** Sources of type [std::tuple], and concatenation *)

Section std_tuple_facts.
Context `{TS : TypeSystem}.

Lemma std_tuple_builds_elim Vars Ts :
  builds Vars (std_tuple Ts) = true →
  Vars ≠ [] ∧
  Forall2 (λ Var TupElem, copy_assignable Var TupElem = true) Vars Ts.
Proof.
  intros [Hreq Hwf]%builds_true.
  apply operator_assign_requires_Viable in Hreq as (Hlike & Hsz & _).
  simpl in Hsz. injection Hsz as Hsz.
  unfold tuple_like in Hlike. simpl in Hlike.
  case_bool_decide as Hpos; [|done].
  split; [intros ->; simpl in *; lia|].
  apply Forall2_same_length_lookup. split; [done|].
  intros i Var E HVar HE.
  destruct (proj1 (assign_impl_well_formed_true _ _ 0) Hwf i Var HVar)
    as [_ (E' & HE' & Hc)]. simpl in HE'. congruence.
Qed.

Lemma std_tuple_builds_intro Vars Ts :
  Vars ≠ [] →
  Forall2 (λ Var TupElem, copy_assignable Var TupElem = true) Vars Ts →
  builds Vars (std_tuple Ts) = true.
Proof.
  intros Hne Hall. pose proof (Forall2_length _ _ _ Hall) as Hlen.
  assert (0 < length Ts) as Hpos by (destruct Vars; simpl in *; [done|lia]).
  apply builds_true. split.
  - apply operator_assign_requires_Viable. unfold tuple_like. simpl.
    split; [by rewrite bool_decide_eq_true_2|]. split; [by rewrite Hlen|].
    intros i Hi. apply lookup_lt_is_Some. lia.
  - apply assign_impl_well_formed_true. intros i Var HVar.
    destruct (Forall2_lookup_l _ _ _ _ _ Hall HVar) as (E & HE & Hc).
    split; [|simpl; eauto]. unfold get_valid. simpl.
    rewrite bool_decide_eq_true_2; [done|]. by eapply lookup_lt_Some.
Qed.

Lemma shift_0 (e : event) : shift 0 e = e.
Proof. by destruct e. Qed.

(** A fold seen from a helper, a type and a source that agree with the
    original ones [n] positions further on. *)
Lemma assign_impl_shift h T tup h' T' tup' n Is : ∀ s s' t,
  (∀ i, i ∈ Is →
     Vars h' !! (n + i) = Vars h !! i ∧
     tuple_element T' (n + i) = tuple_element T i ∧
     refs h' !! (n + i) = refs h !! i ∧ tup' !! (n + i) = tup !! i) →
  assign_impl h T tup Is s = Some s' →
  ∃ new, trace s' = trace s ++ new ∧
    assign_impl h' T' tup' (Nat.add n <$> Is) (Machine (mem s) t)
    = Some (Machine (mem s') (t ++ (shift n <$> new))).
Proof.
  induction Is as [|i Is' IH]; intros s s' t Hsame Hrun; simpl in Hrun.
  - simplify_eq. exists []. by rewrite !app_nil_r.
  - destruct (element_assignment h T tup i s) as [s1|] eqn:H1; [|done].
    simpl in Hrun.
    apply element_assignment_Some in H1
      as (Var & E & dst & src & x & HV & HE & Hd & Hs & Hx & [y Hy] & ->).
    destruct (Hsame i) as (HV' & HE' & Hd' & Hs'); [by left|].
    destruct (IH _ s' (t ++ [Assigned (n + i) dst (converted Var E x)])
                (λ j Hj, Hsame j (list_elem_of_further _ _ _ Hj)) Hrun)
      as (new & Htr & Hrun').
    simpl in Htr, Hrun'.
    exists (Assigned i dst (converted Var E x) :: new).
    split; [by rewrite Htr, <- app_assoc|].
    rewrite fmap_cons. simpl. unfold element_assignment.
    rewrite HV', HV, HE', HE, Hd', Hd, Hs', Hs. simpl.
    rewrite Hx. simpl. rewrite Hy. simpl.
    rewrite Hrun'. by rewrite <- app_assoc.
Qed.

End std_tuple_facts.

Section composition.
Context `{TS : TypeSystem}.

(** X7.  For a source of type [std::tuple<Ts...>] the member template is
    the viable candidate and its body instantiates exactly when there is
    at least one bound variable, the tuple has as many elements as there
    are variables, and each element type can be copy-assigned into the
    variable at its position. *)
Theorem builds_from_std_tuple Vars Ts :
  builds Vars (std_tuple Ts) = true ↔
  Vars ≠ [] ∧
  length Ts = length Vars ∧
  ∀ i Var TupElem, Vars !! i = Some Var → Ts !! i = Some TupElem →
                   copy_assignable Var TupElem = true.
Proof.
  split.
  - intros [Hne Hall]%std_tuple_builds_elim. split; [done|].
    apply Forall2_same_length_lookup in Hall as [Hlen Hall]. by split.
  - intros (Hne & Hlen & Hall). apply std_tuple_builds_intro; [done|].
    apply Forall2_same_length_lookup. by split.
Qed.

(** X8.  Assigning a concatenated binding set from a concatenated tuple
    is assigning the first part and then the second: the same store, and
    the writes of the first followed by those of the second, whatever
    overlaps whatever. *)
Theorem concatenation_is_sequence
    vars1 vars2 Ts1 Ts2 tup1 tup2 σ self1 σ1 log1 self2 σ2 log2 :
  operator_assign (assign vars1) (std_tuple Ts1) tup1 σ
    = Returned self1 σ1 log1 →
  operator_assign (assign vars2) (std_tuple Ts2) tup2 σ1
    = Returned self2 σ2 log2 →
  length tup1 = length vars1 →
  operator_assign (assign (vars1 ++ vars2)) (std_tuple (Ts1 ++ Ts2))
    (tup1 ++ tup2) σ
  = Returned (assign (vars1 ++ vars2)) σ2
      (log1 ++ (shift (length vars1) <$> log2)).
Proof.
  intros Hop1 Hop2 Htup1.
  apply operator_assign_Returned in Hop1 as (Hb1 & _ & Hrun1).
  apply operator_assign_Returned in Hop2 as (Hb2 & _ & Hrun2).
  simpl in Hb1, Hb2, Hrun1, Hrun2. rewrite length_fmap in Hrun1, Hrun2.
  apply std_tuple_builds_elim in Hb1 as [Hne1 Hall1].
  apply std_tuple_builds_elim in Hb2 as [Hne2 Hall2].
  pose proof (Forall2_length _ _ _ Hall1) as Hlen1.
  rewrite length_fmap in Hlen1.
  apply operator_assign_Returned. split; [|split; [done|]].
  - simpl. rewrite fmap_app. apply std_tuple_builds_intro.
    + by destruct (lv_type <$> vars1).
    + by apply Forall2_app.
  - simpl. rewrite length_fmap, length_app, seq_app, assign_impl_app.
    destruct (assign_impl_shift (assign vars1) (std_tuple Ts1) tup1
                (assign (vars1 ++ vars2)) (std_tuple (Ts1 ++ Ts2))
                (tup1 ++ tup2) 0 (seq 0 (length vars1))
                (Machine σ []) (Machine σ1 log1) [])
      as (new1 & Htr1 & Hw1); [|exact Hrun1|].
    { intros i [_ Hi]%elem_of_seq. simpl in *.
      rewrite !fmap_app.
      rewrite !lookup_app_l by (rewrite ?length_fmap; lia). done. }
    simpl in Htr1, Hw1. subst new1.
    rewrite list_fmap_id in Hw1.
    rewrite (list_fmap_ext (shift 0) id log1) in Hw1
      by (intros; apply shift_0).
    rewrite list_fmap_id in Hw1. rewrite Hw1. simpl.
    destruct (assign_impl_shift (assign vars2) (std_tuple Ts2) tup2
                (assign (vars1 ++ vars2)) (std_tuple (Ts1 ++ Ts2))
                (tup1 ++ tup2) (length vars1) (seq 0 (length vars2))
                (Machine σ1 []) (Machine σ2 log2) log1)
      as (new2 & Htr2 & Hw2); [|exact Hrun2|].
    { intros i _. simpl in *. rewrite !fmap_app.
      rewrite !lookup_app_r by (rewrite ?length_fmap; lia).
      rewrite ?length_fmap, <- Hlen1, Htup1.
      by replace (length vars1 + i - length vars1) with i by lia. }
    simpl in Htr2, Hw2. subst new2.
    rewrite fmap_add_seq in Hw2. by rewrite Nat.add_0_r in Hw2.
Qed.

End composition.

Section std_array_sources.
Context `{TS : TypeSystem}.

(** X9.  For a source of type [std::array<T, N>] the member template is
    the viable candidate and its body instantiates exactly when there are
    [N] bound variables and [T] can be copy-assigned into each of them; no
    variable at all and [N = 0] is such a case. *)
Theorem builds_from_std_array Vars T N :
  builds Vars (std_array T N) = true ↔
  length Vars = N ∧ ∀ Var, Var ∈ Vars → copy_assignable Var T = true.
Proof.
  rewrite builds_true, operator_assign_requires_Viable,
    assign_impl_well_formed_true.
  unfold tuple_like. simpl. split.
  - intros [(_ & Hsz & _) Hwf]. injection Hsz as Hsz. split; [done|].
    intros Var [i Hi]%list_elem_of_lookup.
    destruct (Hwf i Var Hi) as [_ (E & HE & Hc)].
    case_bool_decide; by simplify_eq.
  - intros [Hlen Hall]. split.
    + split; [done|]. split; [by rewrite Hlen|].
      intros i Hi. rewrite bool_decide_eq_true_2 by lia. eauto.
    + intros i Var Hi. split; [done|]. exists T.
      rewrite bool_decide_eq_true_2
        by (apply lookup_lt_Some in Hi; lia).
      split; [done|]. apply Hall. apply list_elem_of_lookup. eauto.
Qed.

End std_array_sources.

(** ** The further properties on concrete programs *)

Local Open Scope positive_scope.

(** Two [int] variables: a tuple of three is excluded, an empty tuple is
    an error in the check of the constraint, and a pointer to characters
    at index 1 is an error in the instantiation of the body. *)
Lemma compile_time_verdict_witness :
  operator_assign (assign (ints2 1 2)) (std_tuple [t_int; t_int; t_int])
    [3; 4; 5] σ_ints = Not_a_candidate ∧
  operator_assign (assign (ints2 1 2)) (std_tuple []) [] σ_ints
    = Hard_error ∧
  operator_assign (assign (ints2 1 2)) tuple_int_cstr [3; 4] σ_text
    = Hard_error.
Proof.
  split; [|split].
  - apply (proj2 (proj1 (compile_time_verdict _ _ _ _))).
    right. split; [reflexivity|discriminate].
  - apply (proj2 (proj2 (compile_time_verdict _ _ _ _))).
    left. reflexivity.
  - apply (proj2 (proj2 (compile_time_verdict _ _ _ _))).
    right. split; [reflexivity|]. split; [reflexivity|].
    exists 1%nat, t_int. split; [reflexivity|]. right.
    intros TupElem HE. injection HE as <-. reflexivity.
Defined.

(** [std::array<int, 3> arr = {10, 20, 1};
     assign(arr[2], arr[0], arr[1]) = arr]: the store left is the three
    writes replayed. *)
Lemma writes_in_order_witness :
  operator_assign (assign (ints3 3 1 2)) (std_array t_int 3) [1; 2; 3] σ_ints
    = Returned (assign (ints3 3 1 2))
        (<[1 := v_int 20]> (<[2 := v_int 10]> (<[3 := v_int 10]> σ_ints)))
        [Assigned 0 3 (v_int 10); Assigned 1 1 (v_int 20);
         Assigned 2 2 (v_int 10)] ∧
  <[1 := v_int 20]> (<[2 := v_int 10]> (<[3 := v_int 10]> σ_ints))
    = replay [Assigned 0 3 (v_int 10); Assigned 1 1 (v_int 20);
              Assigned 2 2 (v_int 10)] σ_ints.
Proof.
  assert (operator_assign (assign (ints3 3 1 2)) (std_array t_int 3)
            [1; 2; 3] σ_ints
          = Returned (assign (ints3 3 1 2))
              (<[1 := v_int 20]>
                 (<[2 := v_int 10]> (<[3 := v_int 10]> σ_ints)))
              [Assigned 0 3 (v_int 10); Assigned 1 1 (v_int 20);
               Assigned 2 2 (v_int 10)])
    as Hop by (vm_compute; reflexivity).
  split; [exact Hop|].
  exact (proj1 (writes_in_order _ _ _ _ _ _ _ Hop)).
Defined.



(** [std::pair<int, int> p{10, 20}; assign(p.first, p.second) = p] leaves
    the store as it was. *)
Lemma self_assignment_changes_nothing_witness :
  operator_assign (assign (ints2 1 2)) tuple_int_int
      (refs (assign (ints2 1 2))) σ_ints
    = Returned (assign (ints2 1 2)) σ_ints
        [Assigned 0 1 (v_int 10); Assigned 1 2 (v_int 20)] ∧
  σ_ints = σ_ints.
Proof.
  assert (operator_assign (assign (ints2 1 2)) tuple_int_int
            (refs (assign (ints2 1 2))) σ_ints
          = Returned (assign (ints2 1 2)) σ_ints
              [Assigned 0 1 (v_int 10); Assigned 1 2 (v_int 20)])
    as Hop by (vm_compute; reflexivity).
  split; [exact Hop|].
  apply (self_assignment_changes_nothing _ _ _ _ _ _ Hop).
  intros [|[|i]] Var TupElem l x HV HE Hl Hx; simpl in HV;
    [injection HV as <-; reflexivity..|discriminate].
Defined.


(** The member template takes a tuple of an [int] and a pointer to
    characters for an [int] and a pointer to characters, in this order. *)
Lemma builds_from_std_tuple_witness :
  builds [t_int; t_cstr] (std_tuple [t_int; t_cstr]) = true ∧
  builds [t_cstr; t_int] (std_tuple [t_int; t_cstr]) = false.
Proof.
  split.
  - apply (proj2 (builds_from_std_tuple _ _)).
    split; [discriminate|]. split; [reflexivity|].
    intros [|[|i]] Var TupElem HV HE; simpl in HV, HE;
      [injection HV as <-; injection HE as <-; reflexivity..|discriminate].
  - apply not_true_is_false. intros Hb.
    apply (proj1 (builds_from_std_tuple _ _)) in Hb as (_ & _ & Hall).
    specialize (Hall 0%nat t_cstr t_int eq_refl eq_refl). discriminate.
Defined.

(** [assign(a) = std::make_tuple(42)] followed by
    [assign(b) = std::make_tuple("hello")] is
    [assign(a, b) = std::make_tuple(42, "hello")]. *)
Lemma concatenation_is_sequence_witness :
  (operator_assign (assign [Lvalue t_int 1]) (std_tuple [t_int]) [3] σ_text
     = Returned (assign [Lvalue t_int 1]) (<[1 := v_int 42]> σ_text)
         [Assigned 0 1 (v_int 42)] ∧
   operator_assign (assign [Lvalue t_cstr 2]) (std_tuple [t_cstr]) [4]
       (<[1 := v_int 42]> σ_text)
     = Returned (assign [Lvalue t_cstr 2])
         (<[2 := v_cstr "hello"]> (<[1 := v_int 42]> σ_text))
         [Assigned 0 2 (v_cstr "hello")]) ∧
  operator_assign (assign a_b) tuple_int_cstr [3; 4] σ_text
    = Returned (assign a_b)
        (<[2 := v_cstr "hello"]> (<[1 := v_int 42]> σ_text))
        [Assigned 0 1 (v_int 42); Assigned 1 2 (v_cstr "hello")].
Proof.
  assert (operator_assign (assign [Lvalue t_int 1]) (std_tuple [t_int]) [3]
            σ_text
          = Returned (assign [Lvalue t_int 1]) (<[1 := v_int 42]> σ_text)
              [Assigned 0 1 (v_int 42)]) as Hop1
    by (vm_compute; reflexivity).
  assert (operator_assign (assign [Lvalue t_cstr 2]) (std_tuple [t_cstr]) [4]
            (<[1 := v_int 42]> σ_text)
          = Returned (assign [Lvalue t_cstr 2])
              (<[2 := v_cstr "hello"]> (<[1 := v_int 42]> σ_text))
              [Assigned 0 2 (v_cstr "hello")]) as Hop2
    by (vm_compute; reflexivity).
  split; [by split|].
  exact (concatenation_is_sequence _ _ _ _ _ _ _ _ _ _ _ _ _
           Hop1 Hop2 eq_refl).
Defined.

(** The member template takes an array of no element for no variable,
    and does not take an array of two [int] for an [int] and a pointer to
    characters. *)
Lemma builds_from_std_array_witness :
  builds [] (std_array t_int 0) = true ∧
  builds [t_int; t_cstr] (std_array t_int 2) = false.
Proof.
  split.
  - apply (proj2 (builds_from_std_array _ _ _)).
    split; [reflexivity|]. intros Var HVar. by apply elem_of_nil in HVar.
  - apply not_true_is_false. intros Hb.
    apply (proj1 (builds_from_std_array _ _ _)) in Hb as [_ Hall].
    assert (t_cstr ∈ [t_int; t_cstr]) as Hin by (right; left).
    specialize (Hall t_cstr Hin). discriminate.
Defined.

(** [assign(a, b) = std::make_tuple(42, "hello")] performs the two writes
    [a = 42] and [b = "hello"], in this order; and
    [std::pair<int, int> p; assign(p.first, p.second) = p], where no
    element assignment changes a value, performs its two writes too. *)
Lemma element_assignments_in_index_order_witness :
  (builds (lv_type <$> a_b) tuple_int_cstr = true ∧
   alive σ_text (lv_loc <$> a_b) ∧ alive σ_text [3; 4] ∧
   builds (lv_type <$> ints2 1 2) tuple_int_int = true ∧
   alive σ_ints (lv_loc <$> ints2 1 2) ∧ alive σ_ints [1; 2]) ∧
  (∃ σ' log,
     operator_assign (assign a_b) tuple_int_cstr [3; 4] σ_text
       = Returned (assign a_b) σ' log ∧
     log = [Assigned 0 1 (v_int 42); Assigned 1 2 (v_cstr "hello")] ∧
     σ' = <[2 := v_cstr "hello"]> (<[1 := v_int 42]> σ_text) ∧
     σ' = replay log σ_text) ∧
  (∃ σ' log,
     operator_assign (assign (ints2 1 2)) tuple_int_int [1; 2] σ_ints
       = Returned (assign (ints2 1 2)) σ' log ∧
     log = [Assigned 0 1 (v_int 10); Assigned 1 2 (v_int 20)] ∧
     σ' = replay log σ_ints).
Proof.
  assert (builds (lv_type <$> a_b) tuple_int_cstr = true) as Hb by reflexivity.
  assert (alive σ_text (lv_loc <$> a_b)) as Hrefs by by_computation.
  assert (alive σ_text [3; 4]) as Htup by by_computation.
  assert (builds (lv_type <$> ints2 1 2) tuple_int_int = true) as Hb'
    by reflexivity.
  assert (alive σ_ints (lv_loc <$> ints2 1 2)) as Hrefs' by by_computation.
  assert (alive σ_ints [1; 2]) as Htup' by by_computation.
  split; [done|]. split.
  - destruct (element_assignments_in_index_order a_b tuple_int_cstr [3; 4]
                σ_text Hb eq_refl Hrefs Htup)
      as (σ' & log & Hop & _ & _ & _ & Hstore & _).
    exists σ', log. split; [exact Hop|].
    assert (operator_assign (assign a_b) tuple_int_cstr [3; 4] σ_text
            = Returned (assign a_b)
                (<[2 := v_cstr "hello"]> (<[1 := v_int 42]> σ_text))
                [Assigned 0 1 (v_int 42); Assigned 1 2 (v_cstr "hello")])
      as Hc by (vm_compute; reflexivity).
    rewrite Hc in Hop. injection Hop as Hσ Hlog.
    split; [by rewrite <- Hlog|]. split; [by rewrite <- Hσ|exact Hstore].
  - destruct (element_assignments_in_index_order (ints2 1 2) tuple_int_int
                [1; 2] σ_ints Hb' eq_refl Hrefs' Htup')
      as (σ' & log & Hop & _ & _ & _ & Hstore & _).
    exists σ', log. split; [exact Hop|].
    assert (operator_assign (assign (ints2 1 2)) tuple_int_int [1; 2] σ_ints
            = Returned (assign (ints2 1 2)) σ_ints
                [Assigned 0 1 (v_int 10); Assigned 1 2 (v_int 20)])
      as Hc by (vm_compute; reflexivity).
    rewrite Hc in Hop. injection Hop as Hσ Hlog.
    split; [by rewrite <- Hlog|exact Hstore].
Defined.

(** C3 on the code.  [std::tuple<int, int> x{0, 0}, y{1, 2};
    assign(x) = y]: one bound variable and a source that reports two
    elements.  The member template is excluded from the candidates, and
    the expression builds all the same: the constructor of line 26
    converts [y] to an assigner, and the assignment that the language
    declares for [assign_helper] assigns [y] to [x]. *)
Example arity_mismatch_is_assigned :
  length (Vars (assign just_x)) = 1%nat ∧
  tuple_size (op_traits operand_y) = Some 2%nat ∧
  tuple_like (op_traits operand_y) = Satisfied ∧
  operator_assign (assign just_x) (op_traits operand_y) (op_elems operand_y)
    σ_tuples = Not_a_candidate ∧
  converting_constructor (Vars (assign just_x)) operand_y
    = Some (assign [Lvalue t_tuple_int_int 2]) ∧
  σ_tuples !! 1 = Some (v_tuple 0 0) ∧
  assignment_expression (assign just_x) operand_y σ_tuples
    = Evaluated Implicit_assignment (assign just_x)
        (<[1 := v_tuple 1 2]> σ_tuples) [Assigned 0 1 (v_tuple 1 2)].
Proof. repeat split; vm_compute; reflexivity. Qed.

(** [int m = 7, n = 9; assign(m) = n]: [int] is no tuple and the member
    template is excluded; the constructor converts [n] and the implicitly
    declared assignment leaves [m == 9]. *)
Example scalar_is_assigned :
  tuple_like (op_traits operand_n) = Unsatisfied ∧
  operator_assign (assign [Lvalue t_int 5]) (op_traits operand_n)
    (op_elems operand_n) σ_tuples = Not_a_candidate ∧
  assignment_expression (assign [Lvalue t_int 5]) operand_n σ_tuples
    = Evaluated Implicit_assignment (assign [Lvalue t_int 5])
        (<[5 := v_int 9]> σ_tuples) [Assigned 0 5 (v_int 9)].
Proof. repeat split; vm_compute; reflexivity. Qed.
